(** * The pairwise IBD hidden-Markov log-likelihood of paneljudge

    A shallow embedding of [loglikelihood_cpp]
    (src/hmmloglikelihood.cpp): the forward algorithm over a two-state
    latent chain, with the two unobserved genotypes of a site summed out.

    The program is written once, over the arithmetic of the C++ type
    [double] taken as an interface, and read at two instances:
    - [binary64]: IEEE 754 binary64, every operation rounded on its own
      (Rocq's primitive floats), with the C library's [exp] and [log];
      this is the arithmetic the compiled code runs on;
    - [exact]: the real numbers, the arithmetic the model is stated in. *)

From Stdlib Require Import ZArith List Bool Lia Lra Floats Reals Permutation.
Import ListNotations.

Set Implicit Arguments.
Set Warnings "-inexact-float".

(** ** The arithmetic of [double] *)

Class DoubleOps (D : Type) : Type := {
  d_zero : D;                       (* the literals 0. and 0 *)
  d_one : D;                        (* the literals 1. and 1 *)
  d_threshold : D;                  (* the literal 1e-20 *)
  d_add : D -> D -> D;
  d_sub : D -> D -> D;
  d_mul : D -> D -> D;
  d_div : D -> D -> D;
  d_opp : D -> D;
  d_ltb : D -> D -> bool;           (* x < y; x > y is read as y < x *)
  d_of_int : Z -> D;                (* conversion of an int operand *)
  d_exp : D -> D;
  d_log : D -> D
}.

Declare Scope double_scope.
Delimit Scope double_scope with D.
Infix "+" := d_add : double_scope.
Infix "-" := d_sub : double_scope.
Infix "*" := d_mul : double_scope.
Infix "/" := d_div : double_scope.
Notation "- x" := (d_opp x) : double_scope.
Infix "<?" := d_ltb : double_scope.

(** ** IEEE 754 binary64 *)

(** The two functions of the C mathematical library the program calls. *)
Record libm : Type := {
  libm_exp : float -> float;
  libm_log : float -> float
}.

(** The special values C99 (Annex F.9.3) fixes for [log]; on finite
    positive arguments a library is free in the last bits. *)
Record log_annex_f (m : libm) : Prop := {
  log_pos_zero : libm_log m 0%float = neg_infinity;
  log_neg_zero : libm_log m (-0)%float = neg_infinity;
  log_of_nan : libm_log m nan = nan
}.

(** Conversion of an [int] to [double] (exact for 32-bit values). *)
Definition float_of_int (z : Z) : float :=
  match z with
  | Z0 => 0%float
  | Zpos _ => of_uint63 (Uint63.of_Z z)
  | Zneg _ => (- of_uint63 (Uint63.of_Z (- z)))%float
  end.

#[export] Instance binary64 (m : libm) : DoubleOps float := {
  d_zero := 0%float;
  d_one := 1%float;
  d_threshold := 1e-20%float;        (* the nearest binary64 *)
  d_add := PrimFloat.add;
  d_sub := PrimFloat.sub;
  d_mul := PrimFloat.mul;
  d_div := PrimFloat.div;
  d_opp := PrimFloat.opp;
  d_ltb := PrimFloat.ltb;
  d_of_int := float_of_int;
  d_exp := libm_exp m;
  d_log := libm_log m
}.

(** A reference library, to run the program on concrete inputs: the
    special values of Annex F, and on the other arguments the usual
    reduction ([x = m * 2^e] for [log], [x = n * ln 2 + y] for [exp])
    followed by a series.  What is proved about all inputs is proved for
    every library; this one only runs the examples. *)
Module RefLibm.

Local Open Scope float_scope.

Definition ln2_hi : float := 0x1.62e42fee00000p-1.
Definition ln2_lo : float := 0x1.a39ef35793c76p-33.
Definition inv_ln2 : float := 0x1.71547652b82fep+0.
Definition sqrt_half : float := 0x1.6a09e667f3bcdp-1.

(** [1/d + s2 * (1/(d-2) + s2 * ...)], innermost term first. *)
Fixpoint atanh_series (n : nat) (d : Z) (s2 acc : float) : float :=
  match n with
  | O => acc
  | S n' => atanh_series n' (d - 2) s2 (1 / float_of_int d + s2 * acc)
  end.

Definition log (x : float) : float :=
  if is_nan x then nan
  else if x <? 0 then nan
  else if x =? 0 then neg_infinity
  else if x =? infinity then infinity
  else
    let '(m, e) := Z.frexp x in
    let '(m, e) := if m <? sqrt_half then (2 * m, (e - 1)%Z) else (m, e) in
    let s := (m - 1) / (m + 1) in
    let p := atanh_series 14 27 (s * s) 0 in
    float_of_int e * ln2_hi + (2 * s * p + float_of_int e * ln2_lo).

(** [1 + y/1 * (1 + y/2 * (1 + ...))], innermost term first. *)
Fixpoint exp_series (n : nat) (d : Z) (y acc : float) : float :=
  match n with
  | O => acc
  | S n' => exp_series n' (d - 1) y (1 + y * acc / float_of_int d)
  end.

Definition Z_of_float (x : float) : Z :=
  match Prim2SF x with
  | S754_finite s m e =>
      let a := Z.shiftl (Z.pos m) e in if s then (- a)%Z else a
  | _ => 0%Z
  end.

Definition exp (x : float) : float :=
  if is_nan x then nan
  else if 0x1.62e42fefa39efp+9 <? x then infinity
  else if x <? -0x1.74910d52d3052p+9 then 0
  else
    let big := 0x1.8p+52 in
    let nf := (x * inv_ln2 + big) - big in
    let y := (x - nf * ln2_hi) - nf * ln2_lo in
    Z.ldexp (exp_series 17 17 y 1) (Z_of_float nf).

Definition lib : libm := {| libm_exp := exp; libm_log := log |}.

End RefLibm.

(** ** Exact real arithmetic *)

Definition Rltb (x y : R) : bool := if Rlt_dec x y then true else false.

(** The ideal arithmetic: no rounding, no infinity and no NaN.  [ln] and
    the inverse of the library are total functions on [R] ([ln x = 0]
    for [x <= 0], [x / 0 = 0]) where binary64 answers negative infinity
    or NaN: what is stated of this instance alone is stated of the runs
    that take the logarithm of positive numbers and divide by non-zero
    numbers only. *)
#[export] Instance exact : DoubleOps R := {
  d_zero := 0%R;
  d_one := 1%R;
  d_threshold := (/ 10 ^ 20)%R;
  d_add := Rplus;
  d_sub := Rminus;
  d_mul := Rmult;
  d_div := Rdiv;
  d_opp := Ropp;
  d_ltb := Rltb;
  d_of_int := IZR;
  d_exp := exp;
  d_log := ln
}.

(** ** Rcpp containers

    [operator()] of Rcpp does no bounds check; a matrix is its two
    dimensions and its entries, a vector its length and its entries. *)

Record IntegerMatrix : Type := {
  im_nrow : nat;
  im_ncol : nat;
  im_at : nat -> nat -> Z
}.

Record NumericMatrix (D : Type) : Type := {
  nm_nrow : nat;
  nm_ncol : nat;
  nm_at : nat -> nat -> D
}.

Record NumericVector (D : Type) : Type := {
  nv_length : nat;
  nv_at : nat -> D
}.

(** Containers written row by row, for concrete inputs. *)
Definition int_matrix (ncol : nat) (rows : list (list Z)) : IntegerMatrix :=
  {| im_nrow := length rows; im_ncol := ncol;
     im_at := fun i j => nth j (nth i rows []) 0%Z |}.

Definition num_matrix {D} (dflt : D) (ncol : nat) (rows : list (list D))
  : NumericMatrix D :=
  {| nm_nrow := length rows; nm_ncol := ncol;
     nm_at := fun i j => nth j (nth i rows []) dflt |}.

Definition num_vector {D} (dflt : D) (xs : list D) : NumericVector D :=
  {| nv_length := length xs; nv_at := fun i => nth i xs dflt |}.

(** ** Loops *)

(** [for (int i = i0; i < i0 + n; i ++) s = body i s]. *)
Fixpoint for_loop {St : Type} (n i0 : nat) (body : nat -> St -> St) (s : St) : St :=
  match n with
  | O => s
  | S n' => for_loop n' (S i0) body (body i0 s)
  end.

(** [while (c < bound && test c) c += 1], unfolded at most [fuel] times;
    [bound - c] unfoldings reach the exit. *)
Fixpoint count_while (fuel : nat) (bound : nat) (test : nat -> bool) (c : nat) : nat :=
  match fuel with
  | O => c
  | S fuel' =>
      if (c <? bound)%nat && test c then count_while fuel' bound test (S c) else c
  end.

(** ** The program *)

Section Program.

Context {D : Type} {ops : DoubleOps D}.
Local Open Scope double_scope.

Variables (k r : D).
Variable Ys : IntegerMatrix.
Variable f : NumericMatrix D.
Variable gendist : NumericVector D.
Variables (epsilon rho : D).

(** The local variables that live across iterations of the site loop. *)
Record locals : Type := {
  loglikelihood_value : D;
  current_predictive : D * D;
  current_filter : D * D
}.

(** Lines 84-87: number of different alleles at site [idata]. *)
Definition count_nstates (idata : nat) : nat :=
  let maxnstates := nm_ncol f in
  count_while maxnstates maxnstates
    (fun nstates => d_threshold <? nm_at f idata nstates) 0.

(** Lines 95-106: one pass of the inner body of the double sum. *)
Definition lk0_step (idata nstates g gprime : nat) (lk0 : D) : D :=
  let incr := nm_at f idata g * nm_at f idata gprime in
  let incr :=
    if (im_at Ys idata 0 =? Z.of_nat g)%Z
    then incr * (d_one - d_of_int (Z.of_nat nstates - 1) * epsilon)
    else incr * epsilon in
  let incr :=
    if (im_at Ys idata 1 =? Z.of_nat gprime)%Z
    then incr * (d_one - d_of_int (Z.of_nat nstates - 1) * epsilon)
    else incr * epsilon in
  lk0 + incr.

(** Lines 114-125: one pass of the body of the single sum. *)
Definition lk1_step (idata nstates g : nat) (lk1 : D) : D :=
  let incr := nm_at f idata g in
  let incr :=
    if (im_at Ys idata 0 =? Z.of_nat g)%Z
    then incr * (d_one - d_of_int (Z.of_nat nstates - 1) * epsilon)
    else incr * epsilon in
  let incr :=
    if (im_at Ys idata 1 =? Z.of_nat g)%Z
    then incr * (d_one - d_of_int (Z.of_nat nstates - 1) * epsilon)
    else incr * epsilon in
  lk1 + incr.

(** Lines 90-108: likelihood of the observations given IBD = 0. *)
Definition compute_lk0 (idata nstates : nat) : D :=
  for_loop nstates 0
    (fun g lk0 => for_loop nstates 0 (lk0_step idata nstates g) lk0)
    d_zero.

(** Lines 110-126: likelihood of the observations given IBD = 1. *)
Definition compute_lk1 (idata nstates : nat) : D :=
  for_loop nstates 0 (lk1_step idata nstates) d_zero.

(** Lines 84-126: the pair [(lk0, lk1)] of site [idata]. *)
Definition emission (idata : nat) : D * D :=
  let nstates := count_nstates idata in
  (compute_lk0 idata nstates, compute_lk1 idata nstates).

(** Lines 138-149: normalisation of the filter and the next predictive
    distribution. *)
Definition predict (idata : nat) (current_filter : D * D) (l_idata : D) : D * D * (D * D) :=
  let current_filter := (fst current_filter / l_idata, snd current_filter / l_idata) in
  let exp_ := d_exp (- k * rho * nv_at gendist idata) in
  let a01 := r * (d_one - exp_) in
  let a11 := r + (d_one - r) * exp_ in
  let p1 := fst current_filter * a01 + snd current_filter * a11 in
  let p0 := d_one - p1 in
  ((p0, p1), current_filter).

(** Lines 83-150: the body of the loop over the sites. *)
Definition site_body (ndata : nat) (idata : nat) (st : locals) : locals :=
  let '(lk0, lk1) := emission idata in
  let current_filter :=
    (fst (current_predictive st) * lk0, snd (current_predictive st) * lk1) in
  let l_idata := fst current_filter + snd current_filter in
  let loglikelihood_value := loglikelihood_value st + d_log l_idata in
  if (Z.of_nat idata <? Z.of_nat ndata - 1)%Z then
    let '(current_predictive, current_filter) := predict idata current_filter l_idata in
    {| loglikelihood_value := loglikelihood_value;
       current_predictive := current_predictive;
       current_filter := current_filter |}
  else
    {| loglikelihood_value := loglikelihood_value;
       current_predictive := current_predictive st;
       current_filter := current_filter |}.

(** Line 66: the guard on the parameters. *)
Definition infeasible : bool :=
  (r <? d_zero) || (d_one <? r) || (k <? d_zero).

(** Lines 64-75: the locals when the loop is entered. *)
Definition initial_locals : locals :=
  {| loglikelihood_value := d_zero;
     current_predictive := (d_one - r, r);
     current_filter := (d_zero, d_zero) |}.

(** The locals when iteration [t] of the site loop starts (for
    [t = ndata], when the loop is left). *)
Definition locals_at (t : nat) : locals :=
  for_loop t 0 (site_body (im_nrow Ys)) initial_locals.

(** How a call ends: at the guard of line 66, or after the loop. *)
Inductive run : Type :=
| EarlyReturn (value : D)
| Completed (st : locals).

Definition loglikelihood_run : run :=
  if infeasible then EarlyReturn (d_log d_zero)
  else Completed (locals_at (im_nrow Ys)).

Definition loglikelihood_cpp : D :=
  match loglikelihood_run with
  | EarlyReturn value => value
  | Completed st => loglikelihood_value st
  end.

End Program.

Arguments EarlyReturn {D} value.
Arguments Completed {D} st.

(** ** The quantities of the forward recursion, site by site *)

Section Recursion.

Context {D : Type} {ops : DoubleOps D}.
Local Open Scope double_scope.

Variables (k r : D).
Variable Ys : IntegerMatrix.
Variable f : NumericMatrix D.
Variable gendist : NumericVector D.
Variables (epsilon rho : D).

(** The predictive distribution with which iteration [t] starts. *)
Definition predictive_at (t : nat) : D * D :=
  current_predictive (locals_at k r Ys f gendist epsilon rho t).

(** The filter of lines 129-130, before any normalisation. *)
Definition unnormalized_at (t : nat) : D * D :=
  let '(lk0, lk1) := emission Ys f epsilon t in
  (fst (predictive_at t) * lk0, snd (predictive_at t) * lk1).

(** [l_idata] of line 132: the marginal likelihood [L_t] of site [t]. *)
Definition marginal_at (t : nat) : D :=
  fst (unnormalized_at t) + snd (unnormalized_at t).

(** The filter of site [t] divided by [L_t]. *)
Definition filter_at (t : nat) : D * D :=
  (fst (unnormalized_at t) / marginal_at t,
   snd (unnormalized_at t) / marginal_at t).

(** The log-likelihood accumulated when iteration [t] starts. *)
Definition accumulated_at (t : nat) : D :=
  loglikelihood_value (locals_at k r Ys f gendist epsilon rho t).

End Recursion.

(** ** The emission sums as the specification writes them *)

Section EmissionSums.

Context {D : Type} {ops : DoubleOps D}.
Local Open Scope double_scope.

(** The longest prefix of [l] on which [p] holds. *)
Fixpoint take_while {A : Type} (p : A -> bool) (l : list A) : list A :=
  match l with
  | [] => []
  | a :: l' => if p a then a :: take_while p l' else []
  end.

(** Number of leading entries of row [t] of [f] strictly above 1e-20. *)
Definition leading_count (f : NumericMatrix D) (t : nat) : nat :=
  length (take_while (fun j => d_threshold <? nm_at f t j) (seq 0 (nm_ncol f))).

(** Probability of observing [y] when the true allele is [g], among
    [nstates] alleles. *)
Definition obs_prob (epsilon : D) (nstates : nat) (y : Z) (g : nat) : D :=
  if (y =? Z.of_nat g)%Z
  then d_one - d_of_int (Z.of_nat nstates - 1) * epsilon
  else epsilon.

(** [y] is no allele index of a site with [nstates] alleles. *)
Definition out_of_range (nstates : nat) (y : Z) : bool :=
  (y <? 0)%Z || (Z.of_nat nstates <=? y)%Z.

(** A sum over the list [l], accumulated from [0.] in the order of [l]. *)
Definition sum_over {A : Type} (l : list A) (term : A -> D) : D :=
  fold_left (fun acc a => acc + term a) l d_zero.

(** The single sum over [g] in [[0, nstates)], the two observations
    weighted by [m0] and [m1]. *)
Definition sum_lk1 (row : nat -> D) (nstates : nat) (m0 m1 : nat -> D) : D :=
  sum_over (seq 0 nstates) (fun g => row g * m0 g * m1 g).

(** The double sum over [(g, g')] in [[0, nstates)^2]. *)
Definition sum_lk0 (row : nat -> D) (nstates : nat) (m0 m1 : nat -> D) : D :=
  sum_over (list_prod (seq 0 nstates) (seq 0 nstates))
    (fun gg => row (fst gg) * row (snd gg) * m0 (fst gg) * m1 (snd gg)).

End EmissionSums.

(** Exchange of the two individuals at every site. *)
Definition swap_columns (Ys : IntegerMatrix) : IntegerMatrix :=
  {| im_nrow := im_nrow Ys;
     im_ncol := im_ncol Ys;
     im_at := fun i j =>
       match j with
       | 0%nat => im_at Ys i 1
       | 1%nat => im_at Ys i 0
       | _ => im_at Ys i j
       end |}.

Definition swap_pair {A B : Type} (ab : A * B) : B * A := (snd ab, fst ab).

(** A pair of non-negative reals that sum to 1. *)
Definition is_distribution (p : R * R) : Prop :=
  (0 <= fst p /\ 0 <= snd p /\ fst p + snd p = 1)%R.

(** The first [n] rows of [Ys]. *)
Definition take_rows (n : nat) (Ys : IntegerMatrix) : IntegerMatrix :=
  {| im_nrow := n; im_ncol := im_ncol Ys; im_at := im_at Ys |}.

(** The locals once a NaN has reached the predictive distribution. *)
Definition nan_locals : @locals float :=
  {| loglikelihood_value := nan;
     current_predictive := (nan, nan);
     current_filter := (nan, nan) |}.

(** ** Concrete inputs *)

(** The end-to-end scenario of the specification: two sites, two
    alleles, the same pair observed twice. *)
Module Scenario.
Definition Ys : IntegerMatrix := int_matrix 2 [[0; 0]; [0; 0]]%Z.
Definition f : NumericMatrix float :=
  num_matrix 0%float 2 [[0.6; 0.4]; [0.6; 0.4]]%float.
Definition gendist : NumericVector float := num_vector 0%float [0.01; 0.01]%float.
Definition epsilon : float := 0.001.
Definition rho : float := 7.4e-7.
End Scenario.

(** Two sites, no genotyping error, and a first pair of observations
    that cannot be identical by descent. *)
Module Discordant.
Definition Ys : IntegerMatrix := int_matrix 2 [[0; 1]; [0; 0]]%Z.
Definition f : NumericMatrix float :=
  num_matrix 0%float 2 [[0.5; 0.5]; [0.5; 0.5]]%float.
Definition gendist : NumericVector float := num_vector 0%float [0.01; 0.01]%float.
Definition epsilon : float := 0.
Definition rho : float := 7.4e-7.
Definition k : float := 1.
Definition r : float := 1.
End Discordant.

(** Two sites at distance 0, both observed as the pair [(0, 1)]. *)
Module Asymmetric.
Definition Ys : IntegerMatrix := int_matrix 2 [[0; 1]; [0; 1]]%Z.
Definition f : NumericMatrix float :=
  num_matrix 0%float 2 [[0.254; 0.746]; [0.5; 0.5]]%float.
Definition gendist : NumericVector float := num_vector 0%float [0; 0]%float.
Definition epsilon : float := 0.0001.
Definition rho : float := 7.4e-7.
Definition k : float := 1.
Definition r : float := 0.999999.
End Asymmetric.

(** Eleven sites, all observed as the pair [(0, 1)], with [r] the
    largest double below 1 and one long distance behind the fifth
    site. *)
Module Amplified.
Definition Ys : IntegerMatrix := int_matrix 2 (repeat [0; 1]%Z 11).
Definition f : NumericMatrix float :=
  num_matrix 0%float 2 (repeat [0.25; 0.75]%float 11).
Definition gendist : NumericVector float :=
  num_vector 0%float [0; 0; 0; 0; 1e10; 0; 0; 0; 0; 0; 0]%float.
Definition epsilon : float := 0.0001.
Definition rho : float := 7.4e-7.
Definition k : float := 1.
Definition r : float := 0x1.fffffffffffffp-1.
End Amplified.

(** One site with four allele slots: two alleles, an empty slot, and a
    frequency behind the empty slot; the first individual carries an
    index that is no allele of the site. *)
Module Sparse.
Definition Ys : IntegerMatrix := int_matrix 2 [[2; 0]]%Z.
Definition f : NumericMatrix float :=
  num_matrix 0%float 4 [[0.5; 0.5; 0; 0.25]]%float.
Definition epsilon : float := 0.125.
End Sparse.

(** No site at all. *)
Module Empty.
Definition Ys : IntegerMatrix := int_matrix 2 [].
End Empty.

(** The scenario of the specification in exact arithmetic, with two
    discordant pairs. *)
Module ExactScenario.
Local Open Scope R_scope.
Definition Ys : IntegerMatrix := int_matrix 2 [[0; 1]; [1; 0]]%Z.
Definition f : NumericMatrix R :=
  num_matrix 0 2 [[6 / 10; 4 / 10]; [6 / 10; 4 / 10]].
Definition gendist : NumericVector R := num_vector 0 [1 / 100; 1 / 100].
Definition epsilon : R := 1 / 1000.
Definition rho : R := 74 / 10 ^ 8.
Definition k : R := 1.
Definition r : R := 1 / 100.
End ExactScenario.

(** Another distance behind the last site of [Scenario]. *)
Module OtherEnd.
Definition gendist : NumericVector float := num_vector 0%float [0.01; 1000]%float.
End OtherEnd.

(** [Sparse.f] with another frequency behind the empty slot. *)
Module SparseTail.
Definition f : NumericMatrix float :=
  num_matrix 0%float 4 [[0.5; 0.5; 0; 0.75]]%float.
End SparseTail.

(** A concordant pair, then a discordant pair on the last site. *)
Module ZeroAtEnd.
Definition Ys : IntegerMatrix := int_matrix 2 [[0; 0]; [0; 1]]%Z.
End ZeroAtEnd.

(** * Properties *)

(** ** Loops *)

Lemma for_loop_fold {St : Type} (body : nat -> St -> St) :
  forall n i0 s,
    for_loop n i0 body s = fold_left (fun s i => body i s) (seq i0 n) s.
Proof.
  induction n as [|n IH]; intros i0 s; simpl.
  - reflexivity.
  - apply IH.
Qed.

Lemma for_loop_last {St : Type} (body : nat -> St -> St) :
  forall n i0 s,
    for_loop (S n) i0 body s = body (i0 + n)%nat (for_loop n i0 body s).
Proof.
  induction n as [|n IH]; intros i0 s.
  - simpl. now rewrite Nat.add_0_r.
  - change (for_loop (S (S n)) i0 body s)
      with (for_loop (S n) (S i0) body (body i0 s)).
    rewrite IH. simpl. now rewrite Nat.add_succ_r.
Qed.

Lemma for_loop_ext {St : Type} (body body' : nat -> St -> St) :
  forall n i0 s,
    (forall i s', (i0 <= i < i0 + n)%nat -> body i s' = body' i s') ->
    for_loop n i0 body s = for_loop n i0 body' s.
Proof.
  induction n as [|n IH]; intros i0 s Hb; simpl.
  - reflexivity.
  - rewrite Hb by lia. apply IH. intros i s' Hi. apply Hb. lia.
Qed.

(** With [bound - c] unfoldings the [while] loop is left through its
    test: it has counted the longest run of indices from [c] that pass. *)
Lemma count_while_take_while (bound : nat) (test : nat -> bool) :
  forall fuel c,
    (c + fuel = bound)%nat ->
    count_while fuel bound test c
    = (c + length (take_while test (seq c fuel)))%nat.
Proof.
  induction fuel as [|fuel IH]; intros c Hc; simpl.
  - lia.
  - assert (Hlt : (c <? bound)%nat = true) by (apply Nat.ltb_lt; lia).
    rewrite Hlt. simpl. destruct (test c); simpl.
    + rewrite IH by lia. lia.
    + lia.
Qed.

Lemma count_while_exit (bound : nat) (test : nat -> bool) :
  forall fuel c,
    (c + fuel = bound)%nat ->
    let n := count_while fuel bound test c in
    (c <= n <= bound)%nat /\ (n = bound \/ test n = false).
Proof.
  induction fuel as [|fuel IH]; intros c Hc; simpl.
  - split; [lia | left; lia].
  - assert (Hlt : (c <? bound)%nat = true) by (apply Nat.ltb_lt; lia).
    rewrite Hlt. simpl. destruct (test c) eqn:Ht.
    + destruct (IH (S c)) as [Hr He]; [lia|]. split; [lia | exact He].
    + split; [lia | right; exact Ht].
Qed.

(** ** The emission evaluator *)

Section EmissionFacts.

Context {D : Type} {ops : DoubleOps D}.
Local Open Scope double_scope.

Variable Ys : IntegerMatrix.
Variable f : NumericMatrix D.
Variable epsilon : D.

Lemma count_nstates_leading (t : nat) :
  count_nstates f t = leading_count f t.
Proof.
  unfold count_nstates, leading_count.
  now rewrite count_while_take_while by reflexivity.
Qed.

(** The [while] loop of lines 85-87 is left through its own test: at
    [maxnstates], or at the first entry that is not above 1e-20. *)
Lemma count_nstates_exit (t : nat) :
  (count_nstates f t <= nm_ncol f)%nat /\
  (count_nstates f t = nm_ncol f \/
   (d_threshold <? nm_at f t (count_nstates f t)) = false).
Proof.
  unfold count_nstates.
  destruct (@count_while_exit (nm_ncol f)
              (fun nstates => d_threshold <? nm_at f t nstates)
              (nm_ncol f) 0 eq_refl) as [H E].
  split; [lia | exact E].
Qed.

Lemma fold_pairs {A B : Type} (term : A * B -> D) (l2 : list B) :
  forall (l1 : list A) (acc : D),
    fold_left (fun acc ab => acc + term ab) (list_prod l1 l2) acc
    = fold_left
        (fun acc a => fold_left (fun acc b => acc + term (a, b)) l2 acc)
        l1 acc.
Proof.
  induction l1 as [|a l1 IH]; intros acc; simpl.
  - reflexivity.
  - rewrite fold_left_app, IH. f_equal.
    clear IH. revert acc. induction l2 as [|b l2 IH2]; intros acc; simpl.
    + reflexivity.
    + apply IH2.
Qed.

Lemma fold_left_ext_in {A B : Type} (F G : A -> B -> A) (l : list B) :
  (forall a b, In b l -> F a b = G a b) ->
  forall a, fold_left F l a = fold_left G l a.
Proof.
  induction l as [|b l IH]; intros H a; simpl.
  - reflexivity.
  - rewrite H by (left; reflexivity). apply IH.
    intros a' b' Hin. apply H. right. exact Hin.
Qed.

(** The two loops, read as sums in the order the loops run. *)
Lemma compute_lk1_sum (t nstates : nat) :
  compute_lk1 Ys f epsilon t nstates
  = sum_lk1 (nm_at f t) nstates
      (obs_prob epsilon nstates (im_at Ys t 0))
      (obs_prob epsilon nstates (im_at Ys t 1)).
Proof.
  unfold compute_lk1, sum_lk1, sum_over. rewrite for_loop_fold.
  apply fold_left_ext_in. intros acc g _.
  unfold lk1_step, obs_prob.
  destruct (im_at Ys t 0 =? Z.of_nat g)%Z, (im_at Ys t 1 =? Z.of_nat g)%Z;
    reflexivity.
Qed.

Lemma compute_lk0_sum (t nstates : nat) :
  compute_lk0 Ys f epsilon t nstates
  = sum_lk0 (nm_at f t) nstates
      (obs_prob epsilon nstates (im_at Ys t 0))
      (obs_prob epsilon nstates (im_at Ys t 1)).
Proof.
  unfold compute_lk0, sum_lk0, sum_over.
  rewrite fold_pairs, for_loop_fold.
  apply fold_left_ext_in. intros acc g _.
  rewrite for_loop_fold.
  apply fold_left_ext_in. intros acc' gprime _.
  unfold lk0_step, obs_prob. simpl.
  destruct (im_at Ys t 0 =? Z.of_nat g)%Z,
           (im_at Ys t 1 =? Z.of_nat gprime)%Z; reflexivity.
Qed.

(** C1. At every site [t], with [nstates_t] the number of leading
    entries of row [t] of [f] strictly above 1e-20, the emission
    evaluator returns [(lk0, lk1)] where [lk1] is the sum over [g] in
    [[0, nstates_t)] of [f_t[g] * m(y0_t, g) * m(y1_t, g)] and [lk0] the
    sum over [(g, g')] in [[0, nstates_t)^2] of
    [f_t[g] * f_t[g'] * m(y0_t, g) * m(y1_t, g')], with
    [m(y, g) = 1 - (nstates_t - 1) * epsilon] if [y = g] and [epsilon]
    otherwise; the terms are added in the order of the indices. *)
Theorem emission_is_marginal_sum (t : nat) :
  let nstates := leading_count f t in
  let m0 := obs_prob epsilon nstates (im_at Ys t 0) in
  let m1 := obs_prob epsilon nstates (im_at Ys t 1) in
  emission Ys f epsilon t
  = (sum_lk0 (nm_at f t) nstates m0 m1, sum_lk1 (nm_at f t) nstates m0 m1).
Proof.
  intros nstates m0 m1. unfold emission.
  rewrite compute_lk0_sum, compute_lk1_sum, count_nstates_leading.
  reflexivity.
Qed.

Lemma sum_over_ext_in {A : Type} (l : list A) (term term' : A -> D) :
  (forall a, In a l -> term a = term' a) ->
  sum_over l term = sum_over l term'.
Proof.
  intros H. unfold sum_over. apply fold_left_ext_in.
  intros acc a Hin. now rewrite H.
Qed.

Lemma obs_prob_out_of_range (nstates : nat) (y : Z) (g : nat) :
  out_of_range nstates y = true ->
  (g < nstates)%nat ->
  obs_prob epsilon nstates y g = epsilon.
Proof.
  unfold out_of_range, obs_prob. intros Hy Hg.
  apply orb_true_iff in Hy.
  assert (Hne : (y =? Z.of_nat g)%Z = false).
  { apply Z.eqb_neq. destruct Hy as [Hy|Hy].
    - apply Z.ltb_lt in Hy. lia.
    - apply Z.leb_le in Hy. lia. }
  now rewrite Hne.
Qed.

(** C7. At every site [t], an observed value [Ys(t,0)] or [Ys(t,1)]
    outside [[0, nstates_t)] enters every term of the two emission sums
    with the mismatch probability [epsilon]; the exact-match probability
    [1 - (nstates_t - 1) * epsilon] is used in no term for that
    observation. *)
Theorem out_of_range_observation_is_mismatch (t : nat) :
  let nstates := leading_count f t in
  let m y :=
    if out_of_range nstates y then (fun _ : nat => epsilon)
    else obs_prob epsilon nstates y in
  emission Ys f epsilon t
  = (sum_lk0 (nm_at f t) nstates (m (im_at Ys t 0)) (m (im_at Ys t 1)),
     sum_lk1 (nm_at f t) nstates (m (im_at Ys t 0)) (m (im_at Ys t 1))).
Proof.
  intros nstates m. unfold emission.
  rewrite compute_lk0_sum, compute_lk1_sum, count_nstates_leading.
  fold nstates.
  assert (Hm : forall y g, (g < nstates)%nat ->
                           obs_prob epsilon nstates y g = m y g).
  { intros y g Hg. unfold m.
    destruct (out_of_range nstates y) eqn:Hy.
    - now apply obs_prob_out_of_range.
    - reflexivity. }
  unfold sum_lk0, sum_lk1. f_equal.
  - apply sum_over_ext_in. intros [g g'] Hin.
    apply in_prod_iff in Hin. destruct Hin as [Hg Hg'].
    apply in_seq in Hg. apply in_seq in Hg'. simpl.
    rewrite !Hm by lia. reflexivity.
  - apply sum_over_ext_in. intros g Hg. apply in_seq in Hg.
    rewrite !Hm by lia. reflexivity.
Qed.

End EmissionFacts.

(** ** The forward recursion *)

Section RecursionFacts.

Context {D : Type} {ops : DoubleOps D}.
Local Open Scope double_scope.

Variables (k r : D).
Variable Ys : IntegerMatrix.
Variable f : NumericMatrix D.
Variable gendist : NumericVector D.
Variables (epsilon rho : D).

Local Abbreviation ndata := (im_nrow Ys).
Local Abbreviation state t := (locals_at k r Ys f gendist epsilon rho t).
Local Abbreviation pred t := (predictive_at k r Ys f gendist epsilon rho t).
Local Abbreviation unnorm t := (unnormalized_at k r Ys f gendist epsilon rho t).
Local Abbreviation L t := (marginal_at k r Ys f gendist epsilon rho t).
Local Abbreviation filt t := (filter_at k r Ys f gendist epsilon rho t).
Local Abbreviation acc t := (accumulated_at k r Ys f gendist epsilon rho t).

Lemma locals_at_succ (t : nat) :
  state (S t) = site_body k r Ys f gendist epsilon rho ndata t (state t).
Proof. unfold locals_at. now rewrite for_loop_last. Qed.

(** What one iteration does to the accumulated log-likelihood. *)
Lemma accumulated_at_succ (t : nat) :
  acc (S t) = acc t + d_log (L t).
Proof.
  unfold accumulated_at. rewrite locals_at_succ.
  unfold site_body, marginal_at, unnormalized_at, predictive_at.
  destruct (emission Ys f epsilon t) as [lk0 lk1].
  destruct (Z.of_nat t <? Z.of_nat ndata - 1)%Z; reflexivity.
Qed.

Lemma accumulated_at_sum (t : nat) :
  acc t = sum_over (seq 0 t) (fun s => d_log (L s)).
Proof.
  induction t as [|t IH].
  - reflexivity.
  - rewrite accumulated_at_succ, IH. unfold sum_over.
    rewrite seq_S, fold_left_app. reflexivity.
Qed.

Lemma completed_run :
  infeasible k r = false ->
  loglikelihood_run k r Ys f gendist epsilon rho = Completed (state ndata) /\
  loglikelihood_cpp k r Ys f gendist epsilon rho = acc ndata.
Proof.
  intros Hf. unfold loglikelihood_cpp, loglikelihood_run.
  rewrite Hf. split; reflexivity.
Qed.

(** C2. For every site [t] with [0 <= t < ndata - 1], the predictive
    distribution for site [t + 1] is computed from the normalized
    filtering distribution [(filter0, filter1)] of site [t] as
    [p1' = filter0 * a01 + filter1 * a11] and [p0' = 1 - p1'], where
    [decay = exp (- k * rho * gendist_t)], [a01 = r * (1 - decay)] and
    [a11 = r + (1 - r) * decay]; that normalized filter is what the
    iteration leaves in [current_filter]. *)
Theorem predictive_from_filter (t : nat) :
  (S t < ndata)%nat ->
  let decay := d_exp (- k * rho * nv_at gendist t) in
  let a01 := r * (d_one - decay) in
  let a11 := r + (d_one - r) * decay in
  let p1' := fst (filt t) * a01 + snd (filt t) * a11 in
  current_filter (state (S t)) = filt t /\
  pred (S t) = (d_one - p1', p1').
Proof.
  intros Ht decay a01 a11 p1'.
  assert (Hc : (Z.of_nat t <? Z.of_nat ndata - 1)%Z = true)
    by (apply Z.ltb_lt; lia).
  unfold predictive_at at 1. rewrite locals_at_succ.
  subst p1' a11 a01 decay.
  unfold filter_at, marginal_at, unnormalized_at, site_body, predict.
  fold (pred t).
  destruct (emission Ys f epsilon t) as [lk0 lk1].
  rewrite Hc. simpl. split; reflexivity.
Qed.

(** C3. For every feasible [(k, r)], the predictive distribution used at
    the first site is exactly [(1 - r, r)]: no transition step comes
    before site 0, whose marginal likelihood is
    [(1 - r) * lk0 + r * lk1]. *)
Theorem initial_predictive :
  infeasible k r = false ->
  pred 0 = (d_one - r, r) /\
  L 0 = (d_one - r) * fst (emission Ys f epsilon 0)
        + r * snd (emission Ys f epsilon 0).
Proof.
  intros _. split.
  - reflexivity.
  - unfold marginal_at, unnormalized_at.
    change (pred 0) with (d_one - r, r).
    destruct (emission Ys f epsilon 0) as [lk0 lk1]. reflexivity.
Qed.

(** C9. On the final site ([t = ndata - 1]) the normalization of the
    filter and the prediction step are skipped: the filter is left as
    the products of lines 129-130, never divided by [L_t] whatever [L_t]
    is, the predictive distribution is left as it was, and the value
    returned is the sum of [log L_t] accumulated over all the sites. *)
Theorem final_site_skips_normalization (n : nat) :
  infeasible k r = false ->
  ndata = S n ->
  current_filter (state ndata) = unnorm n /\
  current_predictive (state ndata) = pred n /\
  loglikelihood_cpp k r Ys f gendist epsilon rho
  = sum_over (seq 0 ndata) (fun t => d_log (L t)).
Proof.
  intros Hf Hn.
  destruct (completed_run Hf) as [_ Hv].
  rewrite Hv, accumulated_at_sum.
  split; [|split]; try reflexivity.
  - rewrite Hn at 1. rewrite locals_at_succ.
    unfold site_body, unnormalized_at. fold (pred n).
    destruct (emission Ys f epsilon n) as [lk0 lk1].
    assert (Hc : (Z.of_nat n <? Z.of_nat ndata - 1)%Z = false)
      by (apply Z.ltb_ge; lia).
    rewrite Hc. reflexivity.
  - rewrite Hn at 1. rewrite locals_at_succ.
    unfold site_body. fold (pred n).
    destruct (emission Ys f epsilon n) as [lk0 lk1].
    assert (Hc : (Z.of_nat n <? Z.of_nat ndata - 1)%Z = false)
      by (apply Z.ltb_ge; lia).
    rewrite Hc. reflexivity.
Qed.

(** C10. For every feasible [(k, r)], if [Ys] has no row ([ndata = 0])
    the function returns exactly 0: the loop is left at once, with the
    locals as they were initialised. *)
Theorem empty_sequence_returns_zero :
  infeasible k r = false ->
  ndata = 0%nat ->
  loglikelihood_run k r Ys f gendist epsilon rho
  = Completed (initial_locals r) /\
  loglikelihood_cpp k r Ys f gendist epsilon rho = d_zero.
Proof.
  intros Hf Hn. unfold loglikelihood_cpp, loglikelihood_run.
  rewrite Hf. unfold locals_at. rewrite Hn. split; reflexivity.
Qed.

End RecursionFacts.

(** ** IEEE 754 binary64 *)

Section Binary64Facts.

Local Open Scope float_scope.

Lemma nan_mul_l (x : float) : nan * x = nan.
Proof.
  apply Prim2SF_inj. rewrite mul_spec.
  change (Prim2SF nan) with S754_nan.
  destruct (Prim2SF x); reflexivity.
Qed.

Lemma nan_add_l (x : float) : nan + x = nan.
Proof.
  apply Prim2SF_inj. rewrite add_spec.
  change (Prim2SF nan) with S754_nan.
  destruct (Prim2SF x); reflexivity.
Qed.

Lemma reference_log_annex_f : log_annex_f RefLibm.lib.
Proof. split; vm_compute; reflexivity. Qed.

Variable m : libm.
Hypothesis annex_f : log_annex_f m.

(** C4. Whenever [r < 0] or [r > 1] or [k < 0], the call ends at the
    guard and returns negative infinity, whatever [Ys], [f], [gendist],
    [epsilon] and [rho] are: no site is processed. *)
Theorem infeasible_returns_neg_infinity
    (k r : float) (Ys : IntegerMatrix) (f : NumericMatrix float)
    (gendist : NumericVector float) (epsilon rho : float) :
  (r <? 0) = true \/ (1 <? r) = true \/ (k <? 0) = true ->
  loglikelihood_run (ops := binary64 m) k r Ys f gendist epsilon rho
  = EarlyReturn neg_infinity /\
  loglikelihood_cpp (ops := binary64 m) k r Ys f gendist epsilon rho
  = neg_infinity.
Proof.
  intros H.
  assert (Hi : infeasible (ops := binary64 m) k r = true).
  { unfold infeasible. simpl.
    destruct H as [H|[H|H]]; rewrite H;
      rewrite ?orb_true_r, ?orb_true_l; reflexivity. }
  unfold loglikelihood_cpp, loglikelihood_run. rewrite Hi. simpl.
  rewrite (log_pos_zero annex_f). split; reflexivity.
Qed.

Lemma eqb_zero_cases (x : float) :
  (x =? 0) = true -> x = 0 \/ x = -0.
Proof.
  rewrite eqb_spec. change (Prim2SF 0) with (S754_zero false).
  destruct (Prim2SF x) as [s | s | | s mx ex] eqn:Hx;
    try destruct s; simpl; try discriminate; intros _.
  - right. apply Prim2SF_inj. now rewrite Hx.
  - left. apply Prim2SF_inj. now rewrite Hx.
Qed.

Lemma add_neg_infinity (x : float) :
  x <> nan -> x <> infinity -> x + neg_infinity = neg_infinity.
Proof.
  intros Hnan Hinf. apply Prim2SF_inj. rewrite add_spec.
  change (Prim2SF neg_infinity) with (S754_infinity true).
  destruct (Prim2SF x) as [s | s | | s mx ex] eqn:Hx; try reflexivity.
  - destruct s; [reflexivity|].
    exfalso. apply Hinf. apply Prim2SF_inj. now rewrite Hx.
  - exfalso. apply Hnan. apply Prim2SF_inj. now rewrite Hx.
Qed.

(** X8. A marginal likelihood equal to 0 on the last site does reach the
    caller as negative infinity, as long as the sum accumulated on the
    earlier sites is a number other than positive infinity. *)
Lemma zero_likelihood_on_last_site
    (k r : float) (Ys : IntegerMatrix) (f : NumericMatrix float)
    (gendist : NumericVector float) (epsilon rho : float) (n : nat) :
  infeasible (ops := binary64 m) k r = false ->
  im_nrow Ys = S n ->
  (marginal_at (ops := binary64 m) k r Ys f gendist epsilon rho n =? 0) = true ->
  accumulated_at (ops := binary64 m) k r Ys f gendist epsilon rho n <> nan ->
  accumulated_at (ops := binary64 m) k r Ys f gendist epsilon rho n <> infinity ->
  loglikelihood_cpp (ops := binary64 m) k r Ys f gendist epsilon rho
  = neg_infinity.
Proof.
  intros Hf Hn HL Hnan Hinf.
  destruct (@completed_run _ (binary64 m) k r Ys f gendist epsilon rho Hf)
    as [_ Hv].
  rewrite Hv, Hn, accumulated_at_succ.
  change (@d_add float (binary64 m)) with PrimFloat.add.
  change (@d_log float (binary64 m)) with (libm_log m).
  destruct (eqb_zero_cases HL) as [H0|H0]; rewrite H0.
  - rewrite (log_pos_zero annex_f). now apply add_neg_infinity.
  - rewrite (log_neg_zero annex_f). now apply add_neg_infinity.
Qed.

(** The run on the input [Discordant]: the first site has marginal
    likelihood 0, and leaves no number in the locals. *)
Lemma discordant_after_site_0 :
  locals_at (ops := binary64 m) Discordant.k Discordant.r Discordant.Ys
    Discordant.f Discordant.gendist Discordant.epsilon Discordant.rho 1
  = {| loglikelihood_value := neg_infinity;
       current_predictive := (nan, nan);
       current_filter := (nan, nan) |}.
Proof.
  cbv -[libm_exp libm_log].
  rewrite (log_pos_zero annex_f), !nan_mul_l, nan_add_l.
  reflexivity.
Qed.

Lemma discordant_after_site_1 :
  locals_at (ops := binary64 m) Discordant.k Discordant.r Discordant.Ys
    Discordant.f Discordant.gendist Discordant.epsilon Discordant.rho 2
  = {| loglikelihood_value := nan;
       current_predictive := (nan, nan);
       current_filter := (nan, nan) |}.
Proof.
  rewrite locals_at_succ, discordant_after_site_0.
  pose proof (log_of_nan annex_f) as Hnan.
  cbv -[libm_exp libm_log] in Hnan |- *.
  rewrite Hnan. reflexivity.
Qed.

(** C5. The claim: whenever the marginal likelihood [L_t] of a site is
    exactly 0, the function returns negative infinity, on an interior
    site as on the last one.  On the input [Discordant] ([r = 1],
    [epsilon = 0], first pair [(0, 1)]) the parameters are feasible and
    [L_0 = 0] on the interior site 0, yet the function returns NaN: the
    filter is divided by [L_0], and [0 / 0] reaches the sum through the
    next site. *)
Theorem zero_likelihood_interior_site_returns_nan :
  infeasible (ops := binary64 m) Discordant.k Discordant.r = false /\
  marginal_at (ops := binary64 m) Discordant.k Discordant.r Discordant.Ys
    Discordant.f Discordant.gendist Discordant.epsilon Discordant.rho 0 = 0 /\
  loglikelihood_cpp (ops := binary64 m) Discordant.k Discordant.r Discordant.Ys
    Discordant.f Discordant.gendist Discordant.epsilon Discordant.rho = nan.
Proof.
  split; [reflexivity | split; [reflexivity|]].
  unfold loglikelihood_cpp, loglikelihood_run.
  change (infeasible (ops := binary64 m) Discordant.k Discordant.r) with false.
  change (im_nrow Discordant.Ys) with 2%nat.
  now rewrite discordant_after_site_1.
Qed.

(** C6. The claim: for feasible [(k, r)] the predictive distribution of
    every site and the normalized filter of every site but the last are
    non-negative and sum to 1.  On the input [Discordant] the normalized
    filter of site 0 and the predictive distribution of site 1 are
    [(NaN, NaN)]: no entry is non-negative and the sum is not 1. *)
Theorem zero_likelihood_breaks_distributions :
  let filter := filter_at (ops := binary64 m) Discordant.k Discordant.r
    Discordant.Ys Discordant.f Discordant.gendist Discordant.epsilon
    Discordant.rho 0 in
  let predictive := predictive_at (ops := binary64 m) Discordant.k Discordant.r
    Discordant.Ys Discordant.f Discordant.gendist Discordant.epsilon
    Discordant.rho 1 in
  filter = (nan, nan) /\ predictive = (nan, nan) /\
  (0 <=? fst predictive) = false /\
  (fst predictive + snd predictive =? 1) = false.
Proof.
  intros filter predictive.
  assert (Hp : predictive = (nan, nan)).
  { unfold predictive, predictive_at. now rewrite discordant_after_site_0. }
  split; [reflexivity | split; [exact Hp|]].
  rewrite Hp. split; reflexivity.
Qed.

End Binary64Facts.

(** ** Exchange of the two individuals *)

Section ExactArithmetic.

Context {D : Type} {ops : DoubleOps D}.
Local Open Scope double_scope.

Hypothesis add_comm : forall x y : D, x + y = y + x.
Hypothesis add_assoc : forall x y z : D, x + (y + z) = x + y + z.
Hypothesis mul_comm : forall x y : D, x * y = y * x.
Hypothesis mul_assoc : forall x y z : D, x * (y * z) = x * y * z.

Lemma add_right_comm (x y z : D) : x + y + z = x + z + y.
Proof. now rewrite <- !add_assoc, (add_comm y z). Qed.

Lemma mul_right_comm (x y z : D) : x * y * z = x * z * y.
Proof. now rewrite <- !mul_assoc, (mul_comm y z). Qed.

Lemma fold_sum_permutation {A : Type} (term : A -> D) (l l' : list A) :
  Permutation l l' ->
  forall acc,
    fold_left (fun acc a => acc + term a) l acc
    = fold_left (fun acc a => acc + term a) l' acc.
Proof.
  induction 1 as [|a l l' _ IH|a b l|l l' l'' _ IH1 _ IH2]; intros acc; simpl.
  - reflexivity.
  - apply IH.
  - now rewrite add_right_comm.
  - now rewrite IH1.
Qed.

Lemma fold_sum_map {A B : Type} (h : A -> B) (term : B -> D) (l : list A) :
  forall acc,
    fold_left (fun acc b => acc + term b) (map h l) acc
    = fold_left (fun acc a => acc + term (h a)) l acc.
Proof. induction l as [|a l IH]; intros acc; simpl; [reflexivity | apply IH]. Qed.

Lemma list_prod_cons_r {A B : Type} (a : A) (l1 : list A) (l2 : list B) :
  Permutation (list_prod l2 (a :: l1))
    (map (fun b => (b, a)) l2 ++ list_prod l2 l1).
Proof.
  induction l2 as [|b l2 IH]; simpl.
  - constructor.
  - apply perm_skip.
    rewrite (Permutation_app_head _ IH).
    apply Permutation_app_swap_app.
Qed.

Lemma list_prod_swap {A B : Type} (l1 : list A) (l2 : list B) :
  Permutation (map swap_pair (list_prod l1 l2)) (list_prod l2 l1).
Proof.
  induction l1 as [|a l1 IH]; simpl.
  - induction l2; simpl; [constructor | assumption].
  - rewrite map_app, map_map. simpl.
    rewrite (list_prod_cons_r a l1 l2).
    now apply Permutation_app_head.
Qed.

Lemma sum_lk1_swap (row : nat -> D) (nstates : nat) (m0 m1 : nat -> D) :
  sum_lk1 row nstates m1 m0 = sum_lk1 row nstates m0 m1.
Proof.
  unfold sum_lk1. apply sum_over_ext_in. intros g _. apply mul_right_comm.
Qed.

Lemma sum_lk0_swap (row : nat -> D) (nstates : nat) (m0 m1 : nat -> D) :
  sum_lk0 row nstates m1 m0 = sum_lk0 row nstates m0 m1.
Proof.
  unfold sum_lk0, sum_over.
  rewrite <- (@fold_sum_permutation _ _ _ _
               (list_prod_swap (seq 0 nstates) (seq 0 nstates))).
  rewrite fold_sum_map.
  apply fold_left_ext_in. intros acc [g g'] _. unfold swap_pair. simpl.
  f_equal. rewrite (mul_comm (row g') (row g)). apply mul_right_comm.
Qed.

Lemma emission_swap (Ys : IntegerMatrix) (f : NumericMatrix D) (epsilon : D) (t : nat) :
  emission (swap_columns Ys) f epsilon t = emission Ys f epsilon t.
Proof.
  unfold emission. rewrite !compute_lk0_sum, !compute_lk1_sum. simpl.
  now rewrite sum_lk0_swap, sum_lk1_swap.
Qed.

(** C8, as the program has it.  In an arithmetic whose addition and
    multiplication are associative and commutative, as that of the real
    numbers is, swapping the two columns of [Ys] leaves the returned
    log-likelihood unchanged.  (Nothing of the kind is stated of
    binary64, where neither operation is associative: see
    [swap_columns_changes_result] and [swap_columns_amplified].) *)
Theorem swap_columns_exact (k r : D) (Ys : IntegerMatrix) (f : NumericMatrix D)
    (gendist : NumericVector D) (epsilon rho : D) :
  loglikelihood_cpp k r (swap_columns Ys) f gendist epsilon rho
  = loglikelihood_cpp k r Ys f gendist epsilon rho.
Proof.
  unfold loglikelihood_cpp, loglikelihood_run, locals_at.
  destruct (infeasible k r); [reflexivity|].
  f_equal. simpl. apply for_loop_ext. intros t st _.
  unfold site_body. now rewrite emission_swap.
Qed.

End ExactArithmetic.

(** ** The two distributions in exact arithmetic

    For parameters in range and data as the model takes them
    (frequencies, error and distances that are not negative), the
    predictive pair and the normalized filter are distributions as long
    as no marginal likelihood met so far is 0. *)

Section ExactInvariant.

Local Open Scope R_scope.

Variables (k r : R).
Variable Ys : IntegerMatrix.
Variable f : NumericMatrix R.
Variable gendist : NumericVector R.
Variables (epsilon rho : R).

Hypothesis r_range : 0 <= r <= 1.
Hypothesis k_nonneg : 0 <= k.
Hypothesis f_nonneg : forall t j, 0 <= nm_at f t j.
Hypothesis epsilon_nonneg : 0 <= epsilon.
Hypothesis error_small : IZR (Z.of_nat (nm_ncol f) - 1) * epsilon <= 1.
Hypothesis distance_nonneg : forall t, 0 <= rho * nv_at gendist t.

Local Abbreviation pred t := (predictive_at (ops := exact) k r Ys f gendist epsilon rho t).
Local Abbreviation unnorm t := (unnormalized_at (ops := exact) k r Ys f gendist epsilon rho t).
Local Abbreviation L t := (marginal_at (ops := exact) k r Ys f gendist epsilon rho t).
Local Abbreviation filt t := (filter_at (ops := exact) k r Ys f gendist epsilon rho t).

Lemma fold_sum_nonneg {A : Type} (term : A -> R) (l : list A) :
  (forall a, 0 <= term a) ->
  forall acc, 0 <= acc -> 0 <= fold_left (fun acc a => acc + term a) l acc.
Proof.
  intros Hterm. induction l as [|a l IH]; intros acc Hacc; simpl.
  - exact Hacc.
  - apply IH. specialize (Hterm a). lra.
Qed.

Lemma match_nonneg (t : nat) :
  0 <= 1 - IZR (Z.of_nat (count_nstates f t) - 1) * epsilon.
Proof.
  destruct (count_nstates_exit f t) as [Hle _].
  assert (H : IZR (Z.of_nat (count_nstates f t) - 1)
              <= IZR (Z.of_nat (nm_ncol f) - 1)) by (apply IZR_le; lia).
  nra.
Qed.

Lemma obs_prob_nonneg (t : nat) (y : Z) (g : nat) :
  0 <= obs_prob (ops := exact) epsilon (count_nstates f t) y g.
Proof.
  unfold obs_prob. destruct (y =? Z.of_nat g)%Z.
  - apply match_nonneg.
  - exact epsilon_nonneg.
Qed.

Lemma emission_nonneg (t : nat) :
  0 <= fst (emission (ops := exact) Ys f epsilon t) /\
  0 <= snd (emission (ops := exact) Ys f epsilon t).
Proof.
  unfold emission. simpl. rewrite compute_lk0_sum, compute_lk1_sum.
  unfold sum_lk0, sum_lk1, sum_over. split.
  - apply (fold_sum_nonneg (A := nat * nat)); [|apply Rle_refl].
    intros [g g']. simpl.
    repeat apply Rmult_le_pos; auto using obs_prob_nonneg.
  - apply (fold_sum_nonneg (A := nat)); [|apply Rle_refl].
    intros g.
    repeat apply Rmult_le_pos; auto using obs_prob_nonneg.
Qed.

Lemma filter_is_distribution (t : nat) :
  is_distribution (pred t) -> L t <> 0 -> is_distribution (filt t).
Proof.
  unfold is_distribution, filter_at, marginal_at, unnormalized_at.
  destruct (emission_nonneg t) as [H0 H1].
  destruct (emission (ops := exact) Ys f epsilon t) as [lk0 lk1].
  destruct (pred t) as [p0 p1]. simpl in *.
  intros (Hp0 & Hp1 & _) HL.
  assert (Hu0 : 0 <= p0 * lk0) by now apply Rmult_le_pos.
  assert (Hu1 : 0 <= p1 * lk1) by now apply Rmult_le_pos.
  assert (Hpos : 0 < p0 * lk0 + p1 * lk1) by lra.
  repeat split.
  - apply Rmult_le_pos; [exact Hu0 | left; now apply Rinv_0_lt_compat].
  - apply Rmult_le_pos; [exact Hu1 | left; now apply Rinv_0_lt_compat].
  - field. lra.
Qed.

Lemma predict_is_distribution (t : nat) (flt : R * R) (l : R) :
  is_distribution (fst flt / l, snd flt / l) ->
  is_distribution (fst (predict (ops := exact) k r gendist rho t flt l)).
Proof.
  unfold is_distribution, predict. simpl.
  set (f0 := fst flt / l). set (f1 := snd flt / l).
  set (e := exp (- k * rho * nv_at gendist t)).
  intros (Hf0 & Hf1 & Hsum).
  assert (He0 : 0 < e) by apply exp_pos.
  assert (He1 : e <= 1).
  { rewrite <- exp_0. unfold e.
    destruct (Req_dec (- k * rho * nv_at gendist t) 0) as [E|E].
    - rewrite E. apply Rle_refl.
    - left. apply exp_increasing.
      specialize (distance_nonneg t). nra. }
  assert (Ha01 : 0 <= r * (1 - e) <= 1) by nra.
  assert (Ha11 : 0 <= r + (1 - r) * e <= 1) by nra.
  repeat split; nra.
Qed.

(** X9. In exact arithmetic, for parameters in range and data that are
    not negative, the predictive pair of site [t] and the normalized
    filters of the sites before [t] are non-negative and sum to 1, as
    long as no marginal likelihood before [t] is 0. *)
Lemma exact_distributions (t : nat) :
  (forall s, (s < t)%nat -> L s <> 0) ->
  is_distribution (pred t) /\
  (forall s, (s < t)%nat -> is_distribution (filt s)).
Proof.
  induction t as [|t IH]; intros HL.
  - split; [|intros s Hs; lia].
    unfold is_distribution, predictive_at. simpl. lra.
  - destruct IH as [Hp Hf]; [intros s Hs; apply HL; lia|].
    assert (Hft : is_distribution (filt t))
      by (apply filter_is_distribution; [exact Hp | apply HL; lia]).
    split.
    + unfold predictive_at. rewrite locals_at_succ. unfold site_body.
      fold (pred t).
      pose proof (@predict_is_distribution t (unnorm t) (L t) Hft) as Hpr.
      unfold marginal_at, unnormalized_at in Hpr.
      destruct (emission (ops := exact) Ys f epsilon t) as [lk0 lk1].
      destruct (Z.of_nat t <? Z.of_nat (im_nrow Ys) - 1)%Z.
      * destruct (predict _ _ _ _ _ _ _) as [p' f']. exact Hpr.
      * exact Hp.
    + intros s Hs. destruct (Nat.eq_dec s t) as [->|Hne].
      * exact Hft.
      * apply Hf. lia.
Qed.

End ExactInvariant.

(** ** The program on concrete inputs *)

Section Runs.

Local Open Scope float_scope.

Local Abbreviation run64 := (loglikelihood_cpp (ops := binary64 RefLibm.lib)).

Example scenario_value :
  run64 1 0.01 Scenario.Ys Scenario.f Scenario.gendist Scenario.epsilon
    Scenario.rho = -2.0270871473030407.
Proof. vm_compute. reflexivity. Qed.

(** The scan of a frequency row stops at the first slot that is not
    above 1e-20, whatever comes behind it. *)
Example sparse_nstates :
  count_nstates (ops := binary64 RefLibm.lib) Sparse.f 0 = 2%nat.
Proof. vm_compute. reflexivity. Qed.

(** With the first observation out of range, [lk0] is
    [epsilon * P(y1)] and [lk1] is [0.5 * epsilon * (1 - epsilon)
    + 0.5 * epsilon * epsilon]. *)
Example sparse_emission :
  emission (ops := binary64 RefLibm.lib) Sparse.Ys Sparse.f Sparse.epsilon 0
  = (0.0625, 0.0625).
Proof. vm_compute. reflexivity. Qed.

Example discordant_emission :
  emission (ops := binary64 RefLibm.lib) Discordant.Ys Discordant.f
    Discordant.epsilon 0 = (0.25, 0).
Proof. vm_compute. reflexivity. Qed.

Lemma Rltb_true (x y : R) : (x < y)%R -> Rltb x y = true.
Proof.
  intros H. unfold Rltb. destruct (Rlt_dec x y); [reflexivity | contradiction].
Qed.

(** The hypotheses of [exact_distributions] hold on [ExactScenario]. *)
Example exact_scenario_distribution :
  is_distribution
    (predictive_at (ops := exact) ExactScenario.k ExactScenario.r
       ExactScenario.Ys ExactScenario.f ExactScenario.gendist
       ExactScenario.epsilon ExactScenario.rho 1).
Proof.
  apply exact_distributions.
  - unfold ExactScenario.r. lra.
  - unfold ExactScenario.k. lra.
  - intros t j. unfold ExactScenario.f. simpl.
    repeat (lra || match goal with
                   | |- context [match ?x with _ => _ end] => destruct x; simpl
                   end).
  - unfold ExactScenario.epsilon. lra.
  - unfold ExactScenario.epsilon. simpl. lra.
  - intros t. unfold ExactScenario.rho, ExactScenario.gendist. simpl.
    repeat (lra || match goal with
                   | |- context [match ?x with _ => _ end] => destruct x; simpl
                   end).
  - intros s Hs. assert (s = 0%nat) by lia. subst s.
    unfold marginal_at, unnormalized_at, predictive_at, emission, count_nstates.
    simpl.
    rewrite !Rltb_true by lra. simpl.
    unfold compute_lk0, compute_lk1, lk0_step, lk1_step. simpl.
    unfold ExactScenario.epsilon, ExactScenario.r. lra.
Defined.

Example asymmetric_values :
  run64 Asymmetric.k Asymmetric.r Asymmetric.Ys Asymmetric.f
    Asymmetric.gendist Asymmetric.epsilon Asymmetric.rho
  = -16.67365645225744 /\
  run64 Asymmetric.k Asymmetric.r (swap_columns Asymmetric.Ys) Asymmetric.f
    Asymmetric.gendist Asymmetric.epsilon Asymmetric.rho
  = -16.67365645225739.
Proof. split; vm_compute; reflexivity. Qed.

(** On the input [Amplified] the swap moves the result by more than 9:
    the last bit of the filter before the long distance decides whether
    the predictive probability of state 0 behind it is 0 or not, and the
    sites that follow multiply what is left. *)
Example swap_columns_amplified :
  (run64 Amplified.k Amplified.r (swap_columns Amplified.Ys) Amplified.f
     Amplified.gendist Amplified.epsilon Amplified.rho + 9
   <? run64 Amplified.k Amplified.r Amplified.Ys Amplified.f
        Amplified.gendist Amplified.epsilon Amplified.rho)
  = true.
Proof. vm_compute. reflexivity. Qed.

Lemma float_neq (x y : float) : Prim2SF x <> Prim2SF y -> x <> y.
Proof. intros H E. apply H. now rewrite E. Qed.

(** C8, as stated, fails in binary64.  On the input [Asymmetric] the
    marginal likelihood of site 1 and the returned value both change
    when the two columns of [Ys] are swapped (-16.67365645225744
    becomes -16.67365645225739). *)
Lemma swap_columns_changes_result :
  marginal_at (ops := binary64 RefLibm.lib) Asymmetric.k Asymmetric.r
    (swap_columns Asymmetric.Ys) Asymmetric.f Asymmetric.gendist
    Asymmetric.epsilon Asymmetric.rho 1
  <> marginal_at (ops := binary64 RefLibm.lib) Asymmetric.k Asymmetric.r
       Asymmetric.Ys Asymmetric.f Asymmetric.gendist
       Asymmetric.epsilon Asymmetric.rho 1 /\
  run64 Asymmetric.k Asymmetric.r (swap_columns Asymmetric.Ys) Asymmetric.f
    Asymmetric.gendist Asymmetric.epsilon Asymmetric.rho
  <> run64 Asymmetric.k Asymmetric.r Asymmetric.Ys Asymmetric.f
       Asymmetric.gendist Asymmetric.epsilon Asymmetric.rho.
Proof.
  split; apply float_neq; vm_compute; discriminate.
Qed.

Lemma swap_columns_exact_witness :
  loglikelihood_cpp (ops := exact) ExactScenario.k ExactScenario.r
    (swap_columns ExactScenario.Ys) ExactScenario.f ExactScenario.gendist
    ExactScenario.epsilon ExactScenario.rho
  = loglikelihood_cpp (ops := exact) ExactScenario.k ExactScenario.r
      ExactScenario.Ys ExactScenario.f ExactScenario.gendist
      ExactScenario.epsilon ExactScenario.rho.
Proof.
  apply (@swap_columns_exact R exact).
  - exact Rplus_comm.
  - intros x y z. symmetry. apply Rplus_assoc.
  - exact Rmult_comm.
  - intros x y z. symmetry. apply Rmult_assoc.
Defined.

Lemma predictive_from_filter_witness :
  predictive_at (ops := binary64 RefLibm.lib) 1 0.01 Scenario.Ys Scenario.f
    Scenario.gendist Scenario.epsilon Scenario.rho 1
  = (0.983465407846099, 0.01653459215390095).
Proof.
  destruct (@predictive_from_filter _ (binary64 RefLibm.lib) 1 0.01
              Scenario.Ys Scenario.f Scenario.gendist Scenario.epsilon
              Scenario.rho 0) as [_ H].
  - simpl. lia.
  - rewrite H. vm_compute. reflexivity.
Defined.

Lemma initial_predictive_witness :
  predictive_at (ops := binary64 RefLibm.lib) 1 0.01 Scenario.Ys Scenario.f
    Scenario.gendist Scenario.epsilon Scenario.rho 0
  = (0.99, 0.01).
Proof.
  destruct (@initial_predictive _ (binary64 RefLibm.lib) 1 0.01
              Scenario.Ys Scenario.f Scenario.gendist Scenario.epsilon
              Scenario.rho eq_refl) as [H _].
  rewrite H. vm_compute. reflexivity.
Defined.

Lemma infeasible_returns_neg_infinity_witness :
  run64 1 (-0.1) Scenario.Ys Scenario.f Scenario.gendist Scenario.epsilon
    Scenario.rho = neg_infinity /\
  run64 (-1) 0.5 Scenario.Ys Scenario.f Scenario.gendist Scenario.epsilon
    Scenario.rho = neg_infinity.
Proof.
  split.
  - apply (@infeasible_returns_neg_infinity RefLibm.lib reference_log_annex_f).
    left. reflexivity.
  - apply (@infeasible_returns_neg_infinity RefLibm.lib reference_log_annex_f).
    right. right. reflexivity.
Defined.

Lemma zero_likelihood_interior_site_returns_nan_witness :
  run64 Discordant.k Discordant.r Discordant.Ys Discordant.f
    Discordant.gendist Discordant.epsilon Discordant.rho = nan.
Proof.
  apply (zero_likelihood_interior_site_returns_nan reference_log_annex_f).
Defined.

Lemma zero_likelihood_breaks_distributions_witness :
  predictive_at (ops := binary64 RefLibm.lib) Discordant.k Discordant.r
    Discordant.Ys Discordant.f Discordant.gendist Discordant.epsilon
    Discordant.rho 1 = (nan, nan).
Proof.
  apply (zero_likelihood_breaks_distributions reference_log_annex_f).
Defined.

Lemma final_site_skips_normalization_witness :
  current_filter
    (locals_at (ops := binary64 RefLibm.lib) 1 0.01 Scenario.Ys Scenario.f
       Scenario.gendist Scenario.epsilon Scenario.rho 2)
  = unnormalized_at (ops := binary64 RefLibm.lib) 1 0.01 Scenario.Ys
      Scenario.f Scenario.gendist Scenario.epsilon Scenario.rho 1 /\
  run64 1 0.01 Scenario.Ys Scenario.f Scenario.gendist Scenario.epsilon
    Scenario.rho
  = sum_over (ops := binary64 RefLibm.lib) [0; 1]%nat
      (fun t => RefLibm.log
         (marginal_at (ops := binary64 RefLibm.lib) 1 0.01 Scenario.Ys
            Scenario.f Scenario.gendist Scenario.epsilon Scenario.rho t)).
Proof.
  destruct (@final_site_skips_normalization _ (binary64 RefLibm.lib) 1 0.01
              Scenario.Ys Scenario.f Scenario.gendist Scenario.epsilon
              Scenario.rho 1 eq_refl eq_refl) as [H1 [_ H3]].
  split; [exact H1 | exact H3].
Defined.

Lemma empty_sequence_returns_zero_witness :
  run64 1 0.01 Empty.Ys Scenario.f Scenario.gendist Scenario.epsilon
    Scenario.rho = 0.
Proof.
  apply (@empty_sequence_returns_zero _ (binary64 RefLibm.lib) 1 0.01
           Empty.Ys Scenario.f Scenario.gendist Scenario.epsilon
           Scenario.rho eq_refl eq_refl).
Defined.

End Runs.

(** * Further properties *)

(** ** What the result depends on *)

Lemma count_while_lower (bound : nat) (test : nat -> bool) :
  forall fuel c, (c <= count_while fuel bound test c)%nat.
Proof.
  induction fuel as [|fuel IH]; intros c; simpl.
  - lia.
  - destruct ((c <? bound)%nat && test c); [|lia].
    specialize (IH (S c)). lia.
Qed.

Lemma count_while_ext (bound : nat) (test test' : nat -> bool) :
  forall fuel c,
    (forall j, (c <= j <= count_while fuel bound test c)%nat ->
               (j < bound)%nat -> test j = test' j) ->
    count_while fuel bound test' c = count_while fuel bound test c.
Proof.
  induction fuel as [|fuel IH]; intros c H; simpl in *.
  - reflexivity.
  - destruct (c <? bound)%nat eqn:Hc; simpl in *; [|reflexivity].
    apply Nat.ltb_lt in Hc.
    assert (Ht : test c = test' c).
    { apply H; [|exact Hc]. split; [lia|].
      destruct (test c); [|lia].
      pose proof (count_while_lower bound test fuel (S c)). lia. }
    rewrite <- Ht. destruct (test c); [|reflexivity].
    apply IH. intros j Hj Hb. apply H; [lia | exact Hb].
Qed.

Section DataDependence.

Context {D : Type} {ops : DoubleOps D}.
Local Open Scope double_scope.

Lemma emission_ext (Ys Ys' : IntegerMatrix) (f f' : NumericMatrix D)
    (epsilon : D) (t : nat) :
  im_at Ys t 0 = im_at Ys' t 0 ->
  im_at Ys t 1 = im_at Ys' t 1 ->
  nm_ncol f = nm_ncol f' ->
  (forall j, (j <= count_nstates f t)%nat -> (j < nm_ncol f)%nat ->
             nm_at f t j = nm_at f' t j) ->
  emission Ys' f' epsilon t = emission Ys f epsilon t.
Proof.
  intros H0 H1 Hcol Hf.
  assert (Hn : count_nstates f' t = count_nstates f t).
  { unfold count_nstates. rewrite <- Hcol.
    apply count_while_ext. intros j Hj Hb.
    rewrite Hf; [reflexivity | exact (proj2 Hj) | exact Hb]. }
  destruct (count_nstates_exit f t) as [Hle _].
  unfold emission. rewrite Hn.
  set (n := count_nstates f t) in *.
  assert (Hrow : forall g, (g < n)%nat -> nm_at f' t g = nm_at f t g).
  { intros g Hg. symmetry. apply Hf; lia. }
  f_equal.
  - unfold compute_lk0. apply for_loop_ext. intros g lk Hg.
    apply for_loop_ext. intros g' lk' Hg'.
    unfold lk0_step. now rewrite <- H0, <- H1, !Hrow by lia.
  - unfold compute_lk1. apply for_loop_ext. intros g lk Hg.
    unfold lk1_step. now rewrite <- H0, <- H1, Hrow by lia.
Qed.

Variables (k k' r : D).
Variables (Ys Ys' : IntegerMatrix).
Variables (f f' : NumericMatrix D).
Variables (gendist gendist' : NumericVector D).
Variables (epsilon rho rho' : D).

Hypothesis same_sites : im_nrow Ys = im_nrow Ys'.
Hypothesis same_emission :
  forall t, (t < im_nrow Ys)%nat ->
            emission Ys' f' epsilon t = emission Ys f epsilon t.
Hypothesis same_decay :
  forall t, (S t < im_nrow Ys)%nat ->
            - k' * rho' * nv_at gendist' t = - k * rho * nv_at gendist t.

Lemma locals_at_ext (t : nat) :
  (t <= im_nrow Ys)%nat ->
  locals_at k' r Ys' f' gendist' epsilon rho' t
  = locals_at k r Ys f gendist epsilon rho t.
Proof.
  induction t as [|t IH]; intros Ht.
  - reflexivity.
  - rewrite !locals_at_succ, IH by lia.
    unfold site_body. rewrite same_emission by lia. rewrite <- same_sites.
    destruct (emission Ys f epsilon t) as [lk0 lk1].
    destruct (Z.of_nat t <? Z.of_nat (im_nrow Ys) - 1)%Z eqn:Hc;
      [|reflexivity].
    apply Z.ltb_lt in Hc.
    unfold predict. rewrite same_decay by lia. reflexivity.
Qed.

Lemma loglikelihood_cpp_ext :
  infeasible k' r = infeasible k r ->
  loglikelihood_cpp k' r Ys' f' gendist' epsilon rho'
  = loglikelihood_cpp k r Ys f gendist epsilon rho.
Proof.
  intros Hi. unfold loglikelihood_cpp, loglikelihood_run.
  rewrite Hi, <- same_sites, locals_at_ext by lia. reflexivity.
Qed.

End DataDependence.

Section StepFacts.

Context {D : Type} {ops : DoubleOps D}.
Local Open Scope double_scope.

Variables (k r : D).
Variable Ys : IntegerMatrix.
Variable f : NumericMatrix D.
Variable gendist : NumericVector D.
Variables (epsilon rho : D).

Lemma predictive_at_succ_interior (t : nat) :
  (S t < im_nrow Ys)%nat ->
  predictive_at k r Ys f gendist epsilon rho (S t)
  = fst (predict k r gendist rho t
           (unnormalized_at k r Ys f gendist epsilon rho t)
           (marginal_at k r Ys f gendist epsilon rho t)).
Proof.
  intros Ht.
  assert (Hc : (Z.of_nat t <? Z.of_nat (im_nrow Ys) - 1)%Z = true)
    by (apply Z.ltb_lt; lia).
  unfold predictive_at at 1. rewrite locals_at_succ.
  unfold marginal_at, unnormalized_at, site_body.
  fold (predictive_at k r Ys f gendist epsilon rho t).
  destruct (emission Ys f epsilon t) as [lk0 lk1].
  rewrite Hc. reflexivity.
Qed.

End StepFacts.

Section DataDependenceFacts.

Context {D : Type} {ops : DoubleOps D}.
Local Open Scope double_scope.

Variables (k r : D).
Variable Ys : IntegerMatrix.
Variable f : NumericMatrix D.
Variable gendist : NumericVector D.
Variables (epsilon rho : D).

(** X1. The distances are read at the sites before the last one only:
    the entry of [gendist] at the last site, and any entry behind it, can
    be anything. *)
Theorem last_distance_unused (gendist' : NumericVector D) :
  (forall t, (S t < im_nrow Ys)%nat -> nv_at gendist' t = nv_at gendist t) ->
  loglikelihood_cpp k r Ys f gendist' epsilon rho
  = loglikelihood_cpp k r Ys f gendist epsilon rho.
Proof.
  intros H. apply loglikelihood_cpp_ext; try reflexivity.
  intros t Ht. now rewrite H.
Qed.

(** X2. A row of [f] is read up to its first slot that is not above
    1e-20 (that slot included, for the test) and never beyond the columns
    of [f]: what the rows hold behind that slot does not change the
    result. *)
Theorem inactive_slots_unused (f' : NumericMatrix D) :
  nm_ncol f = nm_ncol f' ->
  (forall t j, (t < im_nrow Ys)%nat ->
               (j <= count_nstates f t)%nat -> (j < nm_ncol f)%nat ->
               nm_at f t j = nm_at f' t j) ->
  loglikelihood_cpp k r Ys f' gendist epsilon rho
  = loglikelihood_cpp k r Ys f gendist epsilon rho.
Proof.
  intros Hcol H. apply loglikelihood_cpp_ext; try reflexivity.
  intros t Ht. apply emission_ext; auto.
Qed.

(** X4. With at most one site no transition is computed: the result
    does not depend on [rho], on [gendist], or on [k] beyond its passing
    the guard. *)
Theorem single_site_ignores_chain (k' rho' : D) (gendist' : NumericVector D) :
  (im_nrow Ys <= 1)%nat ->
  infeasible k r = false ->
  infeasible k' r = false ->
  loglikelihood_cpp k' r Ys f gendist' epsilon rho'
  = loglikelihood_cpp k r Ys f gendist epsilon rho.
Proof.
  intros Hn Hi Hi'. apply loglikelihood_cpp_ext; try reflexivity.
  - intros t Ht. lia.
  - now rewrite Hi, Hi'.
Qed.

Lemma prefix_agrees (n : nat) :
  (n <= im_nrow Ys)%nat ->
  forall t, (t <= n)%nat ->
    accumulated_at k r (take_rows n Ys) f gendist epsilon rho t
    = accumulated_at k r Ys f gendist epsilon rho t /\
    ((t < n)%nat ->
     predictive_at k r (take_rows n Ys) f gendist epsilon rho t
     = predictive_at k r Ys f gendist epsilon rho t).
Proof.
  intros Hn. induction t as [|t IH]; intros Ht.
  - split; reflexivity.
  - destruct IH as [Ha Hp]; [lia|]. specialize (Hp ltac:(lia)).
    assert (HL : marginal_at k r (take_rows n Ys) f gendist epsilon rho t
                 = marginal_at k r Ys f gendist epsilon rho t).
    { unfold marginal_at, unnormalized_at. rewrite Hp. reflexivity. }
    assert (Hu : unnormalized_at k r (take_rows n Ys) f gendist epsilon rho t
                 = unnormalized_at k r Ys f gendist epsilon rho t).
    { unfold unnormalized_at. rewrite Hp. reflexivity. }
    split.
    + rewrite !accumulated_at_succ, Ha, HL. reflexivity.
    + intros Hlt.
      rewrite !predictive_at_succ_interior by (simpl; lia).
      rewrite Hu, HL. reflexivity.
Qed.

(** X5. The value returned for the first [n] sites alone is the sum
    accumulated after [n] sites of the run on all the sites: the
    log-likelihood of a prefix is a partial sum of the whole. *)
Theorem prefix_value_is_running_sum (n : nat) :
  infeasible k r = false ->
  (n <= im_nrow Ys)%nat ->
  loglikelihood_cpp k r (take_rows n Ys) f gendist epsilon rho
  = accumulated_at k r Ys f gendist epsilon rho n.
Proof.
  intros Hi Hn.
  destruct (@completed_run _ _ k r (take_rows n Ys) f gendist epsilon rho Hi)
    as [_ Hv].
  rewrite Hv. simpl. apply prefix_agrees; lia.
Qed.

End DataDependenceFacts.

(** ** NaN in binary64 *)

Section NanFacts.

Local Open Scope float_scope.

Lemma add_nan_r (x : float) : x + nan = nan.
Proof.
  apply Prim2SF_inj. rewrite add_spec.
  change (Prim2SF nan) with S754_nan.
  destruct (Prim2SF x) as [s|s| |s mx ex]; try destruct s; reflexivity.
Qed.

Lemma zero_div_zero (x y : float) :
  (x =? 0) = true -> (y =? 0) = true -> x / (x + y) = nan.
Proof.
  intros Hx Hy.
  destruct (eqb_zero_cases Hx) as [-> | ->];
    destruct (eqb_zero_cases Hy) as [-> | ->]; reflexivity.
Qed.

Lemma zero_div_zero' (x y : float) :
  (x =? 0) = true -> (y =? 0) = true -> y / (x + y) = nan.
Proof.
  intros Hx Hy.
  destruct (eqb_zero_cases Hx) as [-> | ->];
    destruct (eqb_zero_cases Hy) as [-> | ->]; reflexivity.
Qed.

Variable m : libm.
Hypothesis annex_f : log_annex_f m.

Lemma log_nan : libm_log m nan = nan.
Proof. exact (log_of_nan annex_f). Qed.

Lemma site_body_nan
    (k r : float) (Ys : IntegerMatrix) (f : NumericMatrix float)
    (gendist : NumericVector float) (epsilon rho : float)
    (ndata t : nat) (st : @locals float) :
  current_predictive st = (nan, nan) ->
  site_body (ops := binary64 m) k r Ys f gendist epsilon rho ndata t st
  = nan_locals.
Proof.
  intros Hp. unfold site_body, predict. rewrite Hp.
  destruct (emission Ys f epsilon t) as [lk0 lk1].
  cbn [fst snd d_mul d_add d_sub d_div d_log d_exp d_opp d_one binary64].
  rewrite !nan_mul_l, nan_add_l, log_nan, add_nan_r.
  destruct (Z.of_nat t <? Z.of_nat ndata - 1)%Z; reflexivity.
Qed.

Lemma nan_is_absorbing
    (k r : float) (Ys : IntegerMatrix) (f : NumericMatrix float)
    (gendist : NumericVector float) (epsilon rho : float) (t0 : nat) :
  predictive_at (ops := binary64 m) k r Ys f gendist epsilon rho t0 = (nan, nan) ->
  forall t, (t0 < t)%nat ->
    locals_at (ops := binary64 m) k r Ys f gendist epsilon rho t = nan_locals.
Proof.
  intros Hp t Ht. induction t as [|t IH]; [lia|].
  rewrite locals_at_succ. apply site_body_nan.
  destruct (Nat.eq_dec t0 t) as [<-|Hne].
  - exact Hp.
  - rewrite IH by lia. reflexivity.
Qed.

(** X6. A NaN [r] passes the guard of line 66 (each comparison with NaN
    is false): with at least one site the function then returns NaN
    instead of negative infinity. *)
Theorem nan_r_is_not_rejected
    (k : float) (Ys : IntegerMatrix) (f : NumericMatrix float)
    (gendist : NumericVector float) (epsilon rho : float) :
  (k <? 0) = false ->
  (0 < im_nrow Ys)%nat ->
  loglikelihood_cpp (ops := binary64 m) k nan Ys f gendist epsilon rho = nan.
Proof.
  intros Hk Hn. unfold loglikelihood_cpp, loglikelihood_run.
  assert (Hi : infeasible (ops := binary64 m) k nan = false).
  { unfold infeasible. cbn. exact Hk. }
  rewrite Hi.
  rewrite (@nan_is_absorbing k nan Ys f gendist epsilon rho 0);
    [reflexivity | reflexivity | exact Hn].
Qed.

(** X7. If both products of lines 129-130 are zero on a site that is
    not the last one, the division of line 138 is [0 / 0]: the function
    returns NaN, whatever the later sites hold. *)
Theorem zero_filter_on_interior_site_returns_nan
    (k r : float) (Ys : IntegerMatrix) (f : NumericMatrix float)
    (gendist : NumericVector float) (epsilon rho : float) (t : nat) :
  infeasible (ops := binary64 m) k r = false ->
  (S t < im_nrow Ys)%nat ->
  (fst (unnormalized_at (ops := binary64 m) k r Ys f gendist epsilon rho t) =? 0) = true ->
  (snd (unnormalized_at (ops := binary64 m) k r Ys f gendist epsilon rho t) =? 0) = true ->
  loglikelihood_cpp (ops := binary64 m) k r Ys f gendist epsilon rho = nan.
Proof.
  intros Hi Ht H0 H1.
  unfold loglikelihood_cpp, loglikelihood_run. rewrite Hi.
  rewrite (@nan_is_absorbing k r Ys f gendist epsilon rho (S t));
    [reflexivity | | exact Ht].
  rewrite predictive_at_succ_interior by exact Ht.
  unfold predict, marginal_at.
  cbn [fst snd d_mul d_add d_sub d_div d_log d_exp d_opp d_one binary64].
  rewrite (zero_div_zero H0 H1), (zero_div_zero' H0 H1).
  rewrite !nan_mul_l, nan_add_l. reflexivity.
Qed.

End NanFacts.

(** ** Degenerate chains in exact arithmetic *)

Lemma Rltb_false (x y : R) : (y <= x)%R -> Rltb x y = false.
Proof.
  intros H. unfold Rltb. destruct (Rlt_dec x y); [lra | reflexivity].
Qed.

Section DegenerateChains.

Local Open Scope R_scope.

Variable k : R.
Variable Ys : IntegerMatrix.
Variable f : NumericMatrix R.
Variable gendist : NumericVector R.
Variables (epsilon rho : R).

Hypothesis k_nonneg : 0 <= k.

Lemma feasible_at_0 : infeasible (ops := exact) k 0 = false.
Proof.
  unfold infeasible. cbn. rewrite !Rltb_false by lra. reflexivity.
Qed.

Lemma feasible_at_1 : infeasible (ops := exact) k 1 = false.
Proof.
  unfold infeasible. cbn. rewrite !Rltb_false by lra. reflexivity.
Qed.

Lemma never_ibd_predictive :
  (forall t, (t < im_nrow Ys)%nat ->
             0 < fst (emission (ops := exact) Ys f epsilon t)) ->
  forall t, predictive_at (ops := exact) k 0 Ys f gendist epsilon rho t = (1, 0).
Proof.
  intros Hlk. induction t as [|t IH].
  - unfold predictive_at. cbn. f_equal. lra.
  - unfold predictive_at. rewrite locals_at_succ. unfold site_body.
    fold (predictive_at (ops := exact) k 0 Ys f gendist epsilon rho t).
    rewrite IH. specialize (Hlk t).
    destruct (emission (ops := exact) Ys f epsilon t) as [lk0 lk1].
    destruct (Z.of_nat t <? Z.of_nat (im_nrow Ys) - 1)%Z eqn:Hc;
      [|reflexivity].
    apply Z.ltb_lt in Hc. cbn in Hlk |- *.
    assert (H : 0 < lk0) by (apply Hlk; lia).
    f_equal; field; lra.
Qed.

(** X10. In exact arithmetic, with [r = 0] and every [lk0] positive, the
    chain stays in state 0: the predictive pair is [(1, 0)] at every
    site, the marginal likelihood of a site is its [lk0], and the result
    is the sum over the sites of [ln lk0]. *)
Theorem never_ibd_is_independent_sites :
  (forall t, (t < im_nrow Ys)%nat ->
             0 < fst (emission (ops := exact) Ys f epsilon t)) ->
  (forall t, predictive_at (ops := exact) k 0 Ys f gendist epsilon rho t
             = (1, 0)) /\
  (forall t, marginal_at (ops := exact) k 0 Ys f gendist epsilon rho t
             = fst (emission (ops := exact) Ys f epsilon t)) /\
  loglikelihood_cpp (ops := exact) k 0 Ys f gendist epsilon rho
  = sum_over (ops := exact) (seq 0 (im_nrow Ys))
      (fun t => ln (fst (emission (ops := exact) Ys f epsilon t))).
Proof.
  intros Hlk.
  assert (HL : forall t,
             marginal_at (ops := exact) k 0 Ys f gendist epsilon rho t
             = fst (emission (ops := exact) Ys f epsilon t)).
  { intros t. unfold marginal_at, unnormalized_at.
    rewrite never_ibd_predictive by exact Hlk.
    destruct (emission (ops := exact) Ys f epsilon t) as [lk0 lk1].
    cbn. lra. }
  split; [now apply never_ibd_predictive | split; [exact HL|]].
  destruct (@completed_run _ exact k 0 Ys f gendist epsilon rho feasible_at_0)
    as [_ Hv].
  rewrite Hv, accumulated_at_sum. apply sum_over_ext_in. intros t _.
  rewrite HL. reflexivity.
Qed.

Lemma always_ibd_predictive :
  (forall t, (t < im_nrow Ys)%nat ->
             0 < snd (emission (ops := exact) Ys f epsilon t)) ->
  forall t, predictive_at (ops := exact) k 1 Ys f gendist epsilon rho t = (0, 1).
Proof.
  intros Hlk. induction t as [|t IH].
  - unfold predictive_at. cbn. f_equal. lra.
  - unfold predictive_at. rewrite locals_at_succ. unfold site_body.
    fold (predictive_at (ops := exact) k 1 Ys f gendist epsilon rho t).
    rewrite IH. specialize (Hlk t).
    destruct (emission (ops := exact) Ys f epsilon t) as [lk0 lk1].
    destruct (Z.of_nat t <? Z.of_nat (im_nrow Ys) - 1)%Z eqn:Hc;
      [|reflexivity].
    apply Z.ltb_lt in Hc. cbn in Hlk |- *.
    assert (H : 0 < lk1) by (apply Hlk; lia).
    f_equal; field; lra.
Qed.

(** X11. In exact arithmetic, with [r = 1] and every [lk1] positive, the
    chain stays in state 1: the predictive pair is [(0, 1)] at every
    site, the marginal likelihood of a site is its [lk1], and the result
    is the sum over the sites of [ln lk1]. *)
Theorem always_ibd_is_independent_sites :
  (forall t, (t < im_nrow Ys)%nat ->
             0 < snd (emission (ops := exact) Ys f epsilon t)) ->
  (forall t, predictive_at (ops := exact) k 1 Ys f gendist epsilon rho t
             = (0, 1)) /\
  (forall t, marginal_at (ops := exact) k 1 Ys f gendist epsilon rho t
             = snd (emission (ops := exact) Ys f epsilon t)) /\
  loglikelihood_cpp (ops := exact) k 1 Ys f gendist epsilon rho
  = sum_over (ops := exact) (seq 0 (im_nrow Ys))
      (fun t => ln (snd (emission (ops := exact) Ys f epsilon t))).
Proof.
  intros Hlk.
  assert (HL : forall t,
             marginal_at (ops := exact) k 1 Ys f gendist epsilon rho t
             = snd (emission (ops := exact) Ys f epsilon t)).
  { intros t. unfold marginal_at, unnormalized_at.
    rewrite always_ibd_predictive by exact Hlk.
    destruct (emission (ops := exact) Ys f epsilon t) as [lk0 lk1].
    cbn. lra. }
  split; [now apply always_ibd_predictive | split; [exact HL|]].
  destruct (@completed_run _ exact k 1 Ys f gendist epsilon rho feasible_at_1)
    as [_ Hv].
  rewrite Hv, accumulated_at_sum. apply sum_over_ext_in. intros t _.
  rewrite HL. reflexivity.
Qed.

End DegenerateChains.

(** ** The further properties on concrete inputs *)

Section ExtraRuns.

Local Open Scope float_scope.

Local Abbreviation run64 := (loglikelihood_cpp (ops := binary64 RefLibm.lib)).

Lemma last_distance_unused_witness :
  run64 1 0.01 Scenario.Ys Scenario.f OtherEnd.gendist Scenario.epsilon
    Scenario.rho
  = run64 1 0.01 Scenario.Ys Scenario.f Scenario.gendist Scenario.epsilon
      Scenario.rho.
Proof.
  apply (@last_distance_unused _ (binary64 RefLibm.lib)).
  intros t Ht. destruct t as [|t]; [reflexivity | simpl in Ht; lia].
Defined.

Lemma inactive_slots_unused_witness :
  run64 1 0.5 Sparse.Ys SparseTail.f Scenario.gendist Sparse.epsilon
    Scenario.rho
  = run64 1 0.5 Sparse.Ys Sparse.f Scenario.gendist Sparse.epsilon
      Scenario.rho.
Proof.
  apply (@inactive_slots_unused _ (binary64 RefLibm.lib)).
  - reflexivity.
  - intros t j Ht Hj Hb. destruct t as [|t]; [|simpl in Ht; lia].
    assert (Hn : count_nstates (ops := binary64 RefLibm.lib) Sparse.f 0 = 2%nat)
      by (vm_compute; reflexivity).
    rewrite Hn in Hj.
    destruct j as [|[|[|j]]]; try reflexivity; lia.
Defined.

Lemma single_site_ignores_chain_witness :
  run64 50 0.5 Sparse.Ys Sparse.f OtherEnd.gendist Sparse.epsilon 1
  = run64 1 0.5 Sparse.Ys Sparse.f Scenario.gendist Sparse.epsilon
      Scenario.rho.
Proof.
  apply (@single_site_ignores_chain _ (binary64 RefLibm.lib)).
  - simpl. lia.
  - reflexivity.
  - reflexivity.
Defined.

Lemma prefix_value_is_running_sum_witness :
  run64 1 0.01 (take_rows 1 Scenario.Ys) Scenario.f Scenario.gendist
    Scenario.epsilon Scenario.rho
  = accumulated_at (ops := binary64 RefLibm.lib) 1 0.01 Scenario.Ys
      Scenario.f Scenario.gendist Scenario.epsilon Scenario.rho 1.
Proof.
  apply (@prefix_value_is_running_sum _ (binary64 RefLibm.lib)).
  - reflexivity.
  - simpl. lia.
Defined.

Lemma nan_r_is_not_rejected_witness :
  run64 1 nan Scenario.Ys Scenario.f Scenario.gendist Scenario.epsilon
    Scenario.rho = nan.
Proof.
  apply (nan_r_is_not_rejected reference_log_annex_f).
  - reflexivity.
  - simpl. lia.
Defined.

Lemma zero_filter_on_interior_site_returns_nan_witness :
  run64 Discordant.k Discordant.r Discordant.Ys Discordant.f
    Discordant.gendist Discordant.epsilon Discordant.rho = nan.
Proof.
  apply (@zero_filter_on_interior_site_returns_nan RefLibm.lib
           reference_log_annex_f Discordant.k Discordant.r Discordant.Ys
           Discordant.f Discordant.gendist Discordant.epsilon Discordant.rho 0).
  - reflexivity.
  - simpl. lia.
  - vm_compute. reflexivity.
  - vm_compute. reflexivity.
Defined.

Lemma zero_likelihood_on_last_site_witness :
  run64 Discordant.k Discordant.r ZeroAtEnd.Ys Discordant.f
    Discordant.gendist Discordant.epsilon Discordant.rho = neg_infinity.
Proof.
  apply (@zero_likelihood_on_last_site RefLibm.lib reference_log_annex_f
           Discordant.k Discordant.r ZeroAtEnd.Ys Discordant.f
           Discordant.gendist Discordant.epsilon Discordant.rho 1).
  - reflexivity.
  - reflexivity.
  - vm_compute. reflexivity.
  - apply float_neq. vm_compute. discriminate.
  - apply float_neq. vm_compute. discriminate.
Defined.

End ExtraRuns.

Section ExactRuns.

Local Open Scope R_scope.

Lemma exact_scenario_lk_positive (t : nat) :
  (t < im_nrow ExactScenario.Ys)%nat ->
  0 < fst (emission (ops := exact) ExactScenario.Ys ExactScenario.f
             ExactScenario.epsilon t) /\
  0 < snd (emission (ops := exact) ExactScenario.Ys ExactScenario.f
             ExactScenario.epsilon t).
Proof.
  intros Ht. destruct t as [|[|t]]; [| |simpl in Ht; lia];
    unfold emission, count_nstates; simpl;
    rewrite !Rltb_true by lra; simpl;
    unfold compute_lk0, compute_lk1, lk0_step, lk1_step; simpl;
    unfold ExactScenario.epsilon; split; lra.
Qed.

Lemma never_ibd_is_independent_sites_witness :
  predictive_at (ops := exact) ExactScenario.k 0 ExactScenario.Ys
    ExactScenario.f ExactScenario.gendist ExactScenario.epsilon
    ExactScenario.rho 1 = (1, 0) /\
  loglikelihood_cpp (ops := exact) ExactScenario.k 0 ExactScenario.Ys
    ExactScenario.f ExactScenario.gendist ExactScenario.epsilon
    ExactScenario.rho
  = sum_over (ops := exact) [0; 1]%nat
      (fun t => ln (fst (emission (ops := exact) ExactScenario.Ys
                           ExactScenario.f ExactScenario.epsilon t))).
Proof.
  destruct (@never_ibd_is_independent_sites ExactScenario.k ExactScenario.Ys
              ExactScenario.f ExactScenario.gendist ExactScenario.epsilon
              ExactScenario.rho) as [Hp [_ Hv]].
  - unfold ExactScenario.k. lra.
  - intros t Ht. apply exact_scenario_lk_positive. exact Ht.
  - split; [apply Hp | exact Hv].
Defined.

Lemma always_ibd_is_independent_sites_witness :
  predictive_at (ops := exact) ExactScenario.k 1 ExactScenario.Ys
    ExactScenario.f ExactScenario.gendist ExactScenario.epsilon
    ExactScenario.rho 1 = (0, 1) /\
  loglikelihood_cpp (ops := exact) ExactScenario.k 1 ExactScenario.Ys
    ExactScenario.f ExactScenario.gendist ExactScenario.epsilon
    ExactScenario.rho
  = sum_over (ops := exact) [0; 1]%nat
      (fun t => ln (snd (emission (ops := exact) ExactScenario.Ys
                           ExactScenario.f ExactScenario.epsilon t))).
Proof.
  destruct (@always_ibd_is_independent_sites ExactScenario.k ExactScenario.Ys
              ExactScenario.f ExactScenario.gendist ExactScenario.epsilon
              ExactScenario.rho) as [Hp [_ Hv]].
  - unfold ExactScenario.k. lra.
  - intros t Ht. apply exact_scenario_lk_positive. exact Ht.
  - split; [apply Hp | exact Hv].
Defined.

End ExactRuns.
